(** * Read path of the Postgres tuple store

    A shallow embedding of [internal/datastore/postgres/query.go]: the
    query specification [pgTupleQuery] with its refinement methods, the
    executor [Execute], and the result iterator [pgTupleIterator].

    Conventions.
    - Go's [error] interface is the inductive [error]; a [nil] error is [None].
    - A Go call that can panic returns an [outcome].
    - The storage engine ([sqlx.DB]) and the SQL renderer ([squirrel]) are
      libraries outside the repository: the engine's answers are the fields
      of the record [DB], the renderer is the section variable [ToSql].
    - Every statement [Execute] issues against the engine is logged as an
      [Event], in program order. *)

From Stdlib Require Import String ZArith List Bool Lia Permutation.
Import ListNotations.
Local Open Scope string_scope.
Local Open Scope Z_scope.

Set Implicit Arguments.

(** ** Errors and panics *)

(** [errors.New msg] and [fmt.Errorf(format, cause)] with a [%w] verb. *)
Inductive error : Type :=
| errors_New (msg : string)
| fmt_Errorf_w (format : string) (cause : error).

(** [errors.Unwrap]. *)
Definition Unwrap (e : error) : option error :=
  match e with
  | errors_New _ => None
  | fmt_Errorf_w _ cause => Some cause
  end.

Definition errUnableToQueryTuples : string := "unable to query tuples: %w".

Definition errClosedIterator : error :=
  errors_New "unable to iterate: iterator closed".

Definition newline : string := String (Ascii.ascii_of_nat 10) EmptyString.

(** The value carried by a Go panic. *)
Inductive panicValue : Type :=
| nilPointerDereference
| panicString (msg : string).

Inductive outcome (A : Type) : Type :=
| Returns (a : A)
| Panics (v : panicValue).
Arguments Panics {A} v.

Definition bindO {A B : Type} (o : outcome A) (k : A -> outcome B) : outcome B :=
  match o with
  | Returns a => k a
  | Panics v => Panics v
  end.

Notation "x <- c ;; k" := (bindO c (fun x => k))
  (at level 61, c at next level, right associativity).

(** ** Tuple model (generated protobuf messages) *)

Record ObjectAndRelation : Type := mkObjectAndRelation {
  Namespace : string;
  ObjectId : string;
  Relation : string
}.

Inductive User_UserOneof : Type :=
| User_Userset (Userset : ObjectAndRelation).

Record User : Type := mkUser { UserOneof : User_UserOneof }.

Definition GetUserset (u : User) : ObjectAndRelation :=
  match UserOneof u with User_Userset us => us end.

Record RelationTuple : Type := mkRelationTuple {
  RT_ObjectAndRelation : ObjectAndRelation;
  RT_User : User
}.

(** ** Stored rows and the predicate language of the query builder *)

(** Modelled from the spec: the column-name constants [colNamespace] ..
    [colDeletedTxn] are declared in a file of the package that is not part
    of the sources at hand.  The spec lists six string columns and two
    revision columns; they are kept apart as the constructors of an
    enumeration. *)
Inductive Column : Type :=
| colNamespace | colObjectID | colRelation
| colUsersetNamespace | colUsersetObjectID | colUsersetRelation
| colCreatedTxn | colDeletedTxn.

(** Modelled from the spec: the table constant [tableTuple]. *)
Inductive Table : Type := tableTuple.

(** A bound argument ([interface{}]): the code binds strings and [uint64]s. *)
Inductive Value : Type :=
| VString (s : string)
| VUint64 (n : Z).

Record StoredRow : Type := mkStoredRow {
  row_namespace : string;
  row_objectID : string;
  row_relation : string;
  row_usersetNamespace : string;
  row_usersetObjectID : string;
  row_usersetRelation : string;
  createdAtRevision : Z;
  deletedAtRevision : Z
}.

Definition column (row : StoredRow) (c : Column) : Value :=
  match c with
  | colNamespace => VString (row_namespace row)
  | colObjectID => VString (row_objectID row)
  | colRelation => VString (row_relation row)
  | colUsersetNamespace => VString (row_usersetNamespace row)
  | colUsersetObjectID => VString (row_usersetObjectID row)
  | colUsersetRelation => VString (row_usersetRelation row)
  | colCreatedTxn => VUint64 (createdAtRevision row)
  | colDeletedTxn => VUint64 (deletedAtRevision row)
  end.

(** Comparison of a column with a bound argument; values of different
    types do not compare. *)
Definition compareValue (a b : Value) : option comparison :=
  match a, b with
  | VString x, VString y => Some (String.compare x y)
  | VUint64 x, VUint64 y => Some (x ?= y)
  | _, _ => None
  end.

Definition isEq (o : option comparison) : bool :=
  match o with Some Eq => true | _ => false end.
Definition isLtOrEq (o : option comparison) : bool :=
  match o with Some Eq | Some Lt => true | _ => false end.
Definition isGt (o : option comparison) : bool :=
  match o with Some Gt => true | _ => false end.

(** The predicates of [squirrel] the code uses.  [sq.Eq], [sq.LtOrEq] and
    [sq.Gt] are maps from column to argument, written here as the literal
    key/value lists of the source; [sq.Or] is a list of predicates. *)
Unset Elimination Schemes.
Inductive Sqlizer : Type :=
| sq_Eq (m : list (Column * Value))
| sq_LtOrEq (m : list (Column * Value))
| sq_Gt (m : list (Column * Value))
| sq_Or (ps : list Sqlizer).
Set Elimination Schemes.

(** What a predicate means on a stored row: the entries of a map are joined
    by AND, the members of [sq.Or] by OR. *)
Fixpoint holds (p : Sqlizer) (row : StoredRow) : bool :=
  match p with
  | sq_Eq m => forallb (fun kv => isEq (compareValue (column row (fst kv)) (snd kv))) m
  | sq_LtOrEq m => forallb (fun kv => isLtOrEq (compareValue (column row (fst kv)) (snd kv))) m
  | sq_Gt m => forallb (fun kv => isGt (compareValue (column row (fst kv)) (snd kv))) m
  | sq_Or ps => existsb (fun q => holds q row) ps
  end.

(** [sq.SelectBuilder]: a persistent value; [Where] returns a builder with
    one more part and leaves its receiver as it was. *)
Record SelectBuilder : Type := mkSelectBuilder {
  Columns : list Column;
  From : Table;
  WhereParts : list Sqlizer
}.

Definition Select (cols : list Column) : SelectBuilder :=
  mkSelectBuilder cols tableTuple [].

Definition Where (b : SelectBuilder) (pred : Sqlizer) : SelectBuilder :=
  mkSelectBuilder (Columns b) (From b) (WhereParts b ++ [pred])%list.

(** The filter of a builder: its parts joined by AND. *)
Definition accepts (b : SelectBuilder) (row : StoredRow) : bool :=
  forallb (fun p => holds p row) (WhereParts b).

(** ** The storage engine *)

Definition Tx : Type := nat.

(** What [rows.Scan] gives for one raw row: six strings or an error. *)
Record ScannedRow : Type := mkScannedRow {
  scan_namespace : string;
  scan_objectID : string;
  scan_relation : string;
  scan_usersetNamespace : string;
  scan_usersetObjectID : string;
  scan_usersetRelation : string
}.

(** [*sqlx.Rows]: the rows [rows.Next()] steps through, each with the
    result of its [Scan], and the error [rows.Err()] reports at the end. *)
Record Rows : Type := mkRows {
  rows_pending : list (error + ScannedRow);
  rows_Err : option error
}.

(** [*sqlx.DB]: the answers of the engine to the two calls [Execute] makes
    on the pool.  Both calls are taken to return; an engine on which a call
    blocks for ever (a pool with no free connection) has no value here. *)
Record DB : Type := mkDB {
  Beginx : error + Tx;
  Queryx : string -> list Value -> error + Rows
}.

(** Who a statement is issued on: the pool or an open transaction. *)
Inductive Handle : Type :=
| onDB
| onTx (tx : Tx).

Inductive Event : Type :=
| EvBeginx
| EvQueryx (h : Handle) (sql : string) (args : list Value)
| EvRollback (tx : Tx).

(** ** The iterator *)

Record pgTupleIterator : Type := mkIterator {
  tuples : list RelationTuple;
  closed : bool;
  err : option error
}.

Definition Next (pti : pgTupleIterator) : option RelationTuple * pgTupleIterator :=
  if closed pti then
    (None, mkIterator (tuples pti) (closed pti) (Some errClosedIterator))
  else
    match tuples pti with
    | first :: rest => (Some first, mkIterator rest (closed pti) (err pti))
    | [] => (None, pti)
    end.

Definition Err (pti : pgTupleIterator) : option error := err pti.

Definition Close (pti : pgTupleIterator) : outcome pgTupleIterator :=
  if closed pti then Panics (panicString "postgres iterator double closed")
  else Returns (mkIterator [] true (err pti)).

(** The panic of a second [Close]. *)
Definition doubleClosed : panicValue :=
  panicString "postgres iterator double closed".

(** The calls a consumer can make on an iterator, what each call shows the
    consumer, and a run of calls in sequence; a panic ends the run. *)
Inductive call : Type := callNext | callErr | callClose.

Inductive observation : Type :=
| sawNext (t : option RelationTuple)
| sawErr (e : option error)
| sawClose.

Definition step (c : call) (pti : pgTupleIterator)
  : outcome (observation * pgTupleIterator) :=
  match c with
  | callNext => let '(t, pti') := Next pti in Returns (sawNext t, pti')
  | callErr => Returns (sawErr (Err pti), pti)
  | callClose => pti' <- Close pti ;; Returns (sawClose, pti')
  end.

Fixpoint run (cs : list call) (pti : pgTupleIterator)
  : outcome (list observation * pgTupleIterator) :=
  match cs with
  | [] => Returns ([], pti)
  | c :: cs' =>
      r <- step c pti ;;
      r' <- run cs' (snd r) ;;
      Returns (fst r :: fst r', snd r')
  end.

(** [Next] called [n] times in a row. *)
Fixpoint drain (n : nat) (pti : pgTupleIterator)
  : list (option RelationTuple) * pgTupleIterator :=
  match n with
  | O => ([], pti)
  | S n' =>
      let '(t, pti') := Next pti in
      let '(ts, pti'') := drain n' pti' in
      (t :: ts, pti'')
  end.

(** ** The query specification and the executor *)

Section Postgres.

(** Modelled from the spec: [liveDeletedTxnID], the reserved deletion
    revision of a row that is still live, is declared outside the sources
    at hand; it is a parameter. *)
Variable liveDeletedTxnID : Z.

(** [SelectBuilder.ToSql] of squirrel: the SQL text and the bound
    arguments, or an error. *)
Variable ToSql : SelectBuilder -> error + (string * list Value).

(** [fmt]'s rendering of the argument list under the verb [%#v]. *)
Variable GoSyntax : list Value -> string.

Record pgDatastore : Type := mkDatastore { pgd_db : DB }.

Record pgTupleQuery : Type := mkTupleQuery {
  db : DB;
  query : SelectBuilder;
  namespace : string;
  relation : string
}.

Definition queryTuples : SelectBuilder :=
  Select [colNamespace; colObjectID; colRelation;
          colUsersetNamespace; colUsersetObjectID; colUsersetRelation].

Definition QueryTuples (pgd : pgDatastore) (namespace : string) (revision : Z)
  : pgTupleQuery :=
  mkTupleQuery
    (pgd_db pgd)
    (Where
      (Where
        (Where queryTuples (sq_Eq [(colNamespace, VString namespace)]))
        (sq_LtOrEq [(colCreatedTxn, VUint64 revision)]))
      (sq_Or [sq_Eq [(colDeletedTxn, VUint64 liveDeletedTxnID)];
              sq_Gt [(colDeletedTxn, VUint64 revision)]]))
    namespace
    "".

(** The methods have value receivers: each works on its own copy [ptq]. *)
Definition WithObjectID (ptq : pgTupleQuery) (objectID : string) : pgTupleQuery :=
  let ptq := mkTupleQuery (db ptq)
               (Where (query ptq) (sq_Eq [(colObjectID, VString objectID)]))
               (namespace ptq) (relation ptq) in
  ptq.

Definition WithRelation (ptq : pgTupleQuery) (relation' : string) : pgTupleQuery :=
  let ptq := mkTupleQuery (db ptq)
               (Where (query ptq) (sq_Eq [(colRelation, VString relation')]))
               (namespace ptq) (relation ptq) in
  let ptq := mkTupleQuery (db ptq) (query ptq) (namespace ptq) relation' in
  ptq.

(** [userset] is a pointer: [None] is [nil], and reading a field through
    it panics. *)
Definition WithUserset (ptq : pgTupleQuery) (userset : option ObjectAndRelation)
  : outcome pgTupleQuery :=
  match userset with
  | None => Panics nilPointerDereference
  | Some us =>
      let ptq := mkTupleQuery (db ptq)
                   (Where (query ptq)
                      (sq_Eq [(colUsersetNamespace, VString (Namespace us));
                              (colUsersetObjectID, VString (ObjectId us));
                              (colUsersetRelation, VString (Relation us))]))
                   (namespace ptq) (relation ptq) in
      Returns ptq
  end.

(** A refinement call, and a chain of them applied left to right. *)
Inductive refinement : Type :=
| byObjectID (objectID : string)
| byRelation (relation' : string)
| byUserset (userset : option ObjectAndRelation).

Definition refine (ptq : pgTupleQuery) (r : refinement) : outcome pgTupleQuery :=
  match r with
  | byObjectID objectID => Returns (WithObjectID ptq objectID)
  | byRelation relation' => Returns (WithRelation ptq relation')
  | byUserset userset => WithUserset ptq userset
  end.

Fixpoint refineAll (ptq : pgTupleQuery) (rs : list refinement) : outcome pgTupleQuery :=
  match rs with
  | [] => Returns ptq
  | r :: rs' => ptq' <- refine ptq r ;; refineAll ptq' rs'
  end.

(** The iterator [Execute] hands out, with the finalizer registered on it
    by [runtime.SetFinalizer]. *)
Record TupleIterator : Type := mkTupleIterator {
  iter : pgTupleIterator;
  finalizer : pgTupleIterator -> outcome unit
}.

Definition leakMessage (sql : string) (args : list Value) : string :=
  "Tuple iterator garbage collected before Close() was called" ++
  newline ++ " sql: " ++ sql ++
  newline ++ " args: " ++ GoSyntax args ++ newline.

(** The closure passed to [runtime.SetFinalizer]. *)
Definition leakCheck (sql : string) (args : list Value) (iter : pgTupleIterator)
  : outcome unit :=
  if negb (closed iter) then Panics (panicString (leakMessage sql args))
  else Returns tt.

(** What the runtime does with an iterator that has become unreachable in
    state [now]: it runs the registered finalizer on it. *)
Definition collect (it : TupleIterator) (now : pgTupleIterator) : outcome unit :=
  finalizer it now.

Definition newTuple (s : ScannedRow) : RelationTuple :=
  mkRelationTuple
    (mkObjectAndRelation (scan_namespace s) (scan_objectID s) (scan_relation s))
    (mkUser (User_Userset
      (mkObjectAndRelation (scan_usersetNamespace s) (scan_usersetObjectID s)
                           (scan_usersetRelation s)))).

(** The loop [for rows.Next() { ... }]. *)
Fixpoint scanLoop (tuples : list RelationTuple) (pending : list (error + ScannedRow))
  : error + list RelationTuple :=
  match pending with
  | [] => inr tuples
  | inl err :: _ => inl (fmt_Errorf_w errUnableToQueryTuples err)
  | inr s :: rest => scanLoop (tuples ++ [newTuple s])%list rest
  end.

Definition ExecuteResult : Type := option TupleIterator * option error.

(** [defer tx.Rollback()]: the rollback is issued when the body returns. *)
Definition deferRollback (tx : Tx) (body : list Event * ExecuteResult)
  : list Event * ExecuteResult :=
  ((fst body ++ [EvRollback tx])%list, snd body).

Definition failed (cause : error) : ExecuteResult :=
  (None, Some (fmt_Errorf_w errUnableToQueryTuples cause)).

(** The body of [Execute] after the transaction is open; [err] is the
    variable assigned by [Beginx], tested a second time at line 77. *)
Definition executeBody (ptq : pgTupleQuery) (err : option error)
  : list Event * ExecuteResult :=
  match err with
  | Some e => ([], (None, Some e))
  | None =>
    match ToSql (query ptq) with
    | inl err => ([], failed err)
    | inr (sql, args) =>
      match Queryx (db ptq) sql args with
      | inl err => ([EvQueryx onDB sql args], failed err)
      | inr rows =>
        ([EvQueryx onDB sql args],
         match scanLoop [] (rows_pending rows) with
         | inl wrapped => (None, Some wrapped)
         | inr tuples =>
           match rows_Err rows with
           | Some err => failed err
           | None =>
             (Some (mkTupleIterator (mkIterator tuples false None)
                                    (leakCheck sql args)),
              None)
           end
         end)
      end
    end
  end.

Definition Execute (ptq : pgTupleQuery) : list Event * ExecuteResult :=
  match Beginx (db ptq) with
  | inl err => ([EvBeginx], failed err)
  | inr tx =>
    let body := deferRollback tx (executeBody ptq None) in
    (EvBeginx :: fst body, snd body)
  end.

End Postgres.

(** ** Go variables and value receivers *)















(** ** The runtime and finalizers *)

(** What the Go runtime does with an object that has become unreachable
    and has a finalizer: it may run the finalizer at some later time, or
    never run it ([runtime.SetFinalizer] gives no guarantee that a
    finalizer runs before the program exits). *)
Inductive fate : Type := finalizerRuns | finalizerNeverRuns.

Definition abandon (f : fate) (it : TupleIterator) (now : pgTupleIterator)
  : outcome unit :=
  match f with
  | finalizerRuns => collect it now
  | finalizerNeverRuns => Returns tt
  end.

(** ** The visibility rule, in the words of the specification *)

(** A stored row is visible at revision [R]. *)
Definition visibleAt (live R : Z) (row : StoredRow) : Prop :=
  createdAtRevision row <= R /\
  (deletedAtRevision row = live \/ deletedAtRevision row > R).

(** The two parts [QueryTuples] adds for the revision. *)
Definition createdPart (R : Z) : Sqlizer :=
  sq_LtOrEq [(colCreatedTxn, VUint64 R)].

Definition deletedPart (live R : Z) : Sqlizer :=
  sq_Or [sq_Eq [(colDeletedTxn, VUint64 live)];
         sq_Gt [(colDeletedTxn, VUint64 R)]].

(** ** A sample engine, used to run the definitions on concrete inputs *)

Definition sampleLive : Z := 9223372036854775807.

Definition sampleToSql (b : SelectBuilder) : error + (string * list Value) :=
  match Columns b with
  | [] => inl (errors_New "select statements must have at least one result column")
  | _ :: _ => inr ("SELECT", [])
  end.

Definition sampleGoSyntax (args : list Value) : string := "[]interface {}{}".

Definition sampleRow1 : ScannedRow := mkScannedRow "doc" "42" "viewer" "user" "alice" "".
Definition sampleRow2 : ScannedRow := mkScannedRow "doc" "42" "editor" "user" "bob" "".

Definition sampleDB : DB :=
  mkDB (inr 1%nat) (fun _ _ => inr (mkRows [inr sampleRow1; inr sampleRow2] None)).

(** An engine whose second row does not decode. *)
Definition sampleBadDB : DB :=
  mkDB (inr 1%nat)
       (fun _ _ => inr (mkRows [inr sampleRow1; inl (errors_New "scan"); inr sampleRow2] None)).

Definition sampleQuery : pgTupleQuery :=
  QueryTuples sampleLive (mkDatastore sampleDB) "doc" 5.

Definition sampleStored : StoredRow :=
  mkStoredRow "doc" "42" "viewer" "user" "alice" "" 5 sampleLive.

(** The sample row, deleted at revision 9. *)
Definition sampleDeleted : StoredRow :=
  mkStoredRow "doc" "42" "viewer" "user" "alice" "" 5 9.

(** The iterator [Execute] returns for the sample query. *)
Definition sampleIterator : TupleIterator :=
  mkTupleIterator
    (mkIterator [newTuple sampleRow1; newTuple sampleRow2] false None)
    (leakCheck sampleGoSyntax "SELECT" []).


(** ** Reference descriptions the theorems compare the code with *)

(** The error of the first row whose [Scan] fails, if any. *)
Fixpoint firstScanError (pending : list (error + ScannedRow)) : option error :=
  match pending with
  | [] => None
  | inl e :: _ => Some e
  | inr _ :: rest => firstScanError rest
  end.

(** The specification's list of failure conditions, in the order the
    stages run: opening the transaction, compiling the request, running
    it, decoding a row, and the cursor's final error. *)
Definition failureCause (ToSql : SelectBuilder -> error + (string * list Value))
    (ptq : pgTupleQuery) : option error :=
  match Beginx (db ptq) with
  | inl e => Some e
  | inr _ =>
    match ToSql (query ptq) with
    | inl e => Some e
    | inr (sql, args) =>
      match Queryx (db ptq) sql args with
      | inl e => Some e
      | inr rows =>
        match firstScanError (rows_pending rows) with
        | Some e => Some e
        | None => rows_Err rows
        end
      end
    end
  end.

(** No [Close] among the calls. *)
Definition noClose (cs : list call) : bool :=
  forallb (fun c => match c with callClose => false | _ => true end) cs.

(** Some [Next] comes after a [Close] in the history [cs]; [closedYet]
    tells whether the iterator was closed before [cs] began. *)
Fixpoint usedAfterClose (closedYet : bool) (cs : list call) : bool :=
  match cs with
  | [] => false
  | callNext :: cs' => closedYet || usedAfterClose closedYet cs'
  | callErr :: cs' => usedAfterClose closedYet cs'
  | callClose :: cs' => usedAfterClose true cs'
  end.

(** What one refinement asks of a stored row. *)
Definition refinementHolds (r : refinement) (row : StoredRow) : bool :=
  match r with
  | byObjectID objectID => String.eqb (row_objectID row) objectID
  | byRelation relation' => String.eqb (row_relation row) relation'
  | byUserset (Some us) =>
      String.eqb (row_usersetNamespace row) (Namespace us) &&
      String.eqb (row_usersetObjectID row) (ObjectId us) &&
      String.eqb (row_usersetRelation row) (Relation us)
  | byUserset None => false
  end.

(** The refinement does not pass a nil subject. *)
Definition subjectPresent (r : refinement) : bool :=
  match r with
  | byUserset None => false
  | _ => true
  end.

(** The relation named by the last [WithRelation] of a chain, [current]
    when there is none. *)
Fixpoint lastRelation (current : string) (rs : list refinement) : string :=
  match rs with
  | [] => current
  | byRelation relation' :: rs' => lastRelation relation' rs'
  | _ :: rs' => lastRelation current rs'
  end.

(** The tuples a consumer received, in the order it received them. *)
Fixpoint delivered (obs : list observation) : list RelationTuple :=
  match obs with
  | [] => []
  | sawNext (Some t) :: obs' => t :: delivered obs'
  | _ :: obs' => delivered obs'
  end.

(** How many of the calls are [Close]. *)
Fixpoint closes (cs : list call) : nat :=
  match cs with
  | [] => O
  | callClose :: cs' => S (closes cs')
  | _ :: cs' => closes cs'
  end.

(** ** Properties *)

Lemma string_compare_refl (s : string) : String.compare s s = Eq.
Proof.
  induction s as [|a s IH]; simpl; [reflexivity|].
  unfold Ascii.compare. rewrite N.compare_refl. exact IH.
Qed.

Lemma isEq_string (x y : string) :
  isEq (compareValue (VString x) (VString y)) = true <-> x = y.
Proof.
  simpl. split.
  - destruct (String.compare x y) eqn:E; try discriminate.
    intros _. now apply String.compare_eq_iff.
  - intros ->. now rewrite string_compare_refl.
Qed.

Lemma isEq_string_eqb (x y : string) :
  isEq (compareValue (VString x) (VString y)) = String.eqb x y.
Proof.
  destruct (String.eqb_spec x y) as [->|N].
  - now apply isEq_string.
  - destruct (isEq _) eqn:E; [|reflexivity].
    apply isEq_string in E. contradiction.
Qed.

Lemma accepts_Where (b : SelectBuilder) (p : Sqlizer) (row : StoredRow) :
  accepts (Where b p) row = accepts b row && holds p row.
Proof.
  unfold accepts, Where. simpl. rewrite forallb_app. simpl.
  now rewrite andb_true_r.
Qed.

Lemma run_app (cs1 cs2 : list call) (pti : pgTupleIterator) :
  run (cs1 ++ cs2) pti =
  (r1 <- run cs1 pti ;;
   r2 <- run cs2 (snd r1) ;;
   Returns ((fst r1 ++ fst r2)%list, snd r2)).
Proof.
  revert pti. induction cs1 as [|c cs1 IH]; intros pti; simpl.
  - destruct (run cs2 pti) as [[obs it]|v]; reflexivity.
  - destruct (step c pti) as [[o it]|v]; simpl; [|reflexivity].
    rewrite IH.
    destruct (run cs1 it) as [[obs1 it1]|v1]; simpl; [|reflexivity].
    destruct (run cs2 it1) as [[obs2 it2]|v2]; reflexivity.
Qed.

Section Properties.

Variable liveDeletedTxnID : Z.
Variable ToSql : SelectBuilder -> error + (string * list Value).
Variable GoSyntax : list Value -> string.

Lemma holds_createdPart (R : Z) (row : StoredRow) :
  holds (createdPart R) row = true -> createdAtRevision row <= R.
Proof.
  unfold createdPart. simpl. rewrite andb_true_r.
  destruct (Z.compare_spec (createdAtRevision row) R); try discriminate; lia.
Qed.

Lemma holds_deletedPart (R : Z) (row : StoredRow) :
  holds (deletedPart liveDeletedTxnID R) row = true ->
  deletedAtRevision row = liveDeletedTxnID \/ deletedAtRevision row > R.
Proof.
  unfold deletedPart. simpl. rewrite !andb_true_r, orb_false_r.
  intros H. apply orb_true_iff in H. destruct H as [H|H].
  - left.
    destruct (Z.compare_spec (deletedAtRevision row) liveDeletedTxnID);
      try discriminate; assumption.
  - right.
    destruct (Z.compare_spec (deletedAtRevision row) R); try discriminate; lia.
Qed.

(** Each refinement appends exactly one part and touches nothing else of
    the builder; the handle of the engine is carried along. *)
Lemma refine_appends (ptq q : pgTupleQuery) (r : refinement) :
  refine ptq r = Returns q ->
  db q = db ptq /\
  exists p, WhereParts (query q) = (WhereParts (query ptq) ++ [p])%list.
Proof.
  destruct r as [objectID|rel|[us|]]; simpl; intros H;
    try discriminate; injection H as <-; simpl; eauto.
Qed.

Lemma refineAll_extends (rs : list refinement) (ptq q : pgTupleQuery) :
  refineAll ptq rs = Returns q ->
  db q = db ptq /\
  exists ps, WhereParts (query q) = (WhereParts (query ptq) ++ ps)%list /\
             length ps = length rs.
Proof.
  revert ptq. induction rs as [|r rs IH]; intros ptq; simpl.
  - intros H. injection H as <-. split; [reflexivity|].
    exists []. now rewrite app_nil_r.
  - destruct (refine ptq r) as [ptq'|v] eqn:E; simpl; [|discriminate].
    intros H. apply IH in H. destruct H as [Hdb [ps [Hps Hlen]]].
    apply refine_appends in E. destruct E as [Hdb' [p Hp]].
    split; [congruence|].
    exists (p :: ps). rewrite Hps, Hp, <- app_assoc. simpl.
    split; [reflexivity | now rewrite Hlen].
Qed.

(** The only statement [Execute] runs is the compilation of the
    specification's own builder. *)
Lemma Execute_runs_compiled_query (ptq : pgTupleQuery) (h : Handle)
    (sql : string) (args : list Value) :
  In (EvQueryx h sql args) (fst (Execute ToSql GoSyntax ptq)) ->
  h = onDB /\ ToSql (query ptq) = inr (sql, args).
Proof.
  unfold Execute, deferRollback, executeBody.
  destruct (Beginx (db ptq)) as [e|tx]; simpl.
  - intros [H|[]]; discriminate.
  - destruct (ToSql (query ptq)) as [e|[sql' args']]; simpl.
    + intros [H|[H|[]]]; discriminate.
    + destruct (Queryx (db ptq) sql' args') as [e|rows]; simpl;
        intros [H|[H|[H|[]]]]; try discriminate;
        injection H as <- <- <-; auto.
Qed.

(** C1. For every namespace and revision [R] given to [QueryTuples] and
    every chain of later refinements that returns a specification [q]: the
    builder of [q] still starts with the namespace part and the two
    revision parts added at construction, whatever was appended after
    them; its filter accepts a stored row only if the row was created at
    or before [R] and is either live or deleted after [R]; and the
    statement [Execute] runs is the compilation of exactly this builder. *)
Theorem QueryTuples_visibility
    (pgd : pgDatastore) (ns : string) (R : Z)
    (rs : list refinement) (q : pgTupleQuery) :
  refineAll (QueryTuples liveDeletedTxnID pgd ns R) rs = Returns q ->
  (exists extra,
     WhereParts (query q) =
       ([sq_Eq [(colNamespace, VString ns)];
         createdPart R; deletedPart liveDeletedTxnID R] ++ extra)%list /\
     length extra = length rs) /\
  (forall row, accepts (query q) row = true ->
     row_namespace row = ns /\ visibleAt liveDeletedTxnID R row) /\
  (forall h sql args,
     In (EvQueryx h sql args) (fst (Execute ToSql GoSyntax q)) ->
     ToSql (query q) = inr (sql, args)).
Proof.
  intros H. apply refineAll_extends in H. destruct H as [_ [ps [Hps Hlen]]].
  simpl in Hps. split; [|split].
  - exists ps. split; assumption.
  - intros row Hrow. unfold accepts in Hrow. rewrite Hps in Hrow.
    change (sq_LtOrEq [(colCreatedTxn, VUint64 R)]) with (createdPart R) in Hrow.
    change (sq_Or _) with (deletedPart liveDeletedTxnID R) in Hrow.
    cbn [forallb app] in Hrow.
    apply andb_true_iff in Hrow. destruct Hrow as [Hns Hrow].
    apply andb_true_iff in Hrow. destruct Hrow as [Hc Hrow].
    apply andb_true_iff in Hrow. destruct Hrow as [Hd _].
    split; [|split].
    + cbn [holds forallb fst snd column] in Hns. rewrite andb_true_r in Hns.
      now apply isEq_string.
    + now apply holds_createdPart.
    + now apply holds_deletedPart.
  - intros h sql args Hin.
    now apply Execute_runs_compiled_query in Hin.
Qed.

(** C8, amended. Every builder operation given a subject that is present
    returns a specification: it accumulates data and neither fails nor
    panics.  [QueryTuples], for every datastore, namespace and revision,
    returns the specification that holds the namespace part and the two
    revision parts and nothing else; [WithObjectID], [WithRelation] and
    [WithUserset] with a present subject return the parts of their receiver
    followed by exactly one new part. *)
Theorem builder_operations_return
    (pgd : pgDatastore) (ns : string) (R : Z)
    (ptq : pgTupleQuery) (objectID rel : string) (us : ObjectAndRelation) :
  (exists q, QueryTuples liveDeletedTxnID pgd ns R = q /\
     WhereParts (query q) =
       [sq_Eq [(colNamespace, VString ns)];
        createdPart R; deletedPart liveDeletedTxnID R] /\
     Columns (query q) =
       [colNamespace; colObjectID; colRelation;
        colUsersetNamespace; colUsersetObjectID; colUsersetRelation] /\
     namespace q = ns /\ relation q = "" /\ db q = pgd_db pgd) /\
  (exists q, refine ptq (byObjectID objectID) = Returns q /\
     WhereParts (query q) =
       (WhereParts (query ptq) ++ [sq_Eq [(colObjectID, VString objectID)]])%list) /\
  (exists q, refine ptq (byRelation rel) = Returns q /\
     WhereParts (query q) =
       (WhereParts (query ptq) ++ [sq_Eq [(colRelation, VString rel)]])%list) /\
  (exists q, WithUserset ptq (Some us) = Returns q /\
     WhereParts (query q) =
       (WhereParts (query ptq) ++
        [sq_Eq [(colUsersetNamespace, VString (Namespace us));
                (colUsersetObjectID, VString (ObjectId us));
                (colUsersetRelation, VString (Relation us))]])%list).
Proof.
  split.
  - eexists. split; [reflexivity|]. repeat split.
  - repeat split; eexists; split; reflexivity.
Qed.

(** *** The executor *)

Lemma scanLoop_all_decoded (rs : list ScannedRow) (acc : list RelationTuple) :
  scanLoop acc (map inr rs) = inr (acc ++ map newTuple rs)%list.
Proof.
  revert acc. induction rs as [|r rs IH]; intros acc; simpl.
  - now rewrite app_nil_r.
  - rewrite IH, <- app_assoc. reflexivity.
Qed.

(** The loop gives up at the first row that does not decode, whatever was
    accumulated before; otherwise it returns the accumulated tuples. *)
Lemma scanLoop_firstScanError (pending : list (error + ScannedRow))
    (acc : list RelationTuple) :
  match firstScanError pending with
  | Some e => scanLoop acc pending = inl (fmt_Errorf_w errUnableToQueryTuples e)
  | None => exists tuples, scanLoop acc pending = inr tuples
  end.
Proof.
  revert acc. induction pending as [|[e|r] rest IH]; intros acc; simpl.
  - eauto.
  - reflexivity.
  - apply IH.
Qed.

Lemma firstScanError_after_decoded (pre : list ScannedRow) (e : error)
    (post : list (error + ScannedRow)) :
  firstScanError (map inr pre ++ inl e :: post) = Some e.
Proof.
  induction pre as [|r pre IH]; simpl; [reflexivity | exact IH].
Qed.

(** Once the transaction is open, and the engine answers the calls made
    on it, the rollback is the last thing [Execute] does, on every path. *)
Lemma Execute_rolls_back (ptq : pgTupleQuery) (tx : Tx) :
  Beginx (db ptq) = inr tx ->
  exists evs, fst (Execute ToSql GoSyntax ptq) = (EvBeginx :: evs ++ [EvRollback tx])%list.
Proof.
  intros H. unfold Execute, deferRollback. rewrite H. simpl. eauto.
Qed.

(** The iterator [Execute] returns is open, has an empty error slot, and
    carries the leak check for the statement that was run. *)
Lemma Execute_iterator_fresh (ptq : pgTupleQuery) (it : TupleIterator) (e : option error) :
  snd (Execute ToSql GoSyntax ptq) = (Some it, e) ->
  e = None /\ closed (iter it) = false /\ err (iter it) = None /\
  exists sql args, ToSql (query ptq) = inr (sql, args) /\
                   finalizer it = leakCheck GoSyntax sql args.
Proof.
  unfold Execute, deferRollback, executeBody, failed.
  destruct (Beginx (db ptq)) as [e0|tx]; simpl; [discriminate|].
  destruct (ToSql (query ptq)) as [e0|[sql args]]; simpl; [discriminate|].
  destruct (Queryx (db ptq) sql args) as [e0|rows]; simpl; [discriminate|].
  destruct (scanLoop [] (rows_pending rows)) as [e0|ts]; [discriminate|].
  destruct (rows_Err rows) as [e0|]; [discriminate|].
  intros H. injection H as <- <-. simpl. eauto 8.
Qed.

(** C3. [Execute] fails exactly when one of its stages fails, and then it
    returns no iterator together with the error of the first failing stage
    wrapped in the one "unable to query tuples" error; when no stage fails it
    returns an iterator and no error.  In particular, when a row fails to
    decode after any number of rows that decoded, the call returns that
    error and no iterator. *)
Theorem Execute_failure_wraps_cause (ptq : pgTupleQuery) :
  match failureCause ToSql ptq with
  | Some cause =>
      snd (Execute ToSql GoSyntax ptq) =
        (None, Some (fmt_Errorf_w errUnableToQueryTuples cause)) /\
      Unwrap (fmt_Errorf_w errUnableToQueryTuples cause) = Some cause
  | None => exists it, snd (Execute ToSql GoSyntax ptq) = (Some it, None)
  end /\
  (forall tx sql args rows pre e post,
     Beginx (db ptq) = inr tx ->
     ToSql (query ptq) = inr (sql, args) ->
     Queryx (db ptq) sql args = inr rows ->
     rows_pending rows = (map inr pre ++ inl e :: post)%list ->
     snd (Execute ToSql GoSyntax ptq) =
       (None, Some (fmt_Errorf_w errUnableToQueryTuples e))).
Proof.
  assert (G : match failureCause ToSql ptq with
    | Some cause =>
        snd (Execute ToSql GoSyntax ptq) =
          (None, Some (fmt_Errorf_w errUnableToQueryTuples cause)) /\
        Unwrap (fmt_Errorf_w errUnableToQueryTuples cause) = Some cause
    | None => exists it, snd (Execute ToSql GoSyntax ptq) = (Some it, None)
    end).
  { unfold failureCause, Execute, deferRollback, executeBody, failed.
    destruct (Beginx (db ptq)) as [e|tx]; simpl; [auto|].
    destruct (ToSql (query ptq)) as [e|[sql args]]; simpl; [auto|].
    destruct (Queryx (db ptq) sql args) as [e|rows]; simpl; [auto|].
    pose proof (scanLoop_firstScanError (rows_pending rows) []) as L.
    destruct (firstScanError (rows_pending rows)) as [e|].
    - rewrite L. auto.
    - destruct L as [ts ->].
      destruct (rows_Err rows) as [e|]; eauto. }
  split; [exact G|].
  intros tx sql args rows pre e post Hb Hc Hq Hr.
  unfold failureCause in G. rewrite Hb, Hc, Hq, Hr in G.
  rewrite firstScanError_after_decoded in G. apply G.
Qed.

(** *** The iterator *)

Lemma drain_open (l : list RelationTuple) (e : option error) :
  drain (length l) (mkIterator l false e) = (map Some l, mkIterator [] false e).
Proof.
  induction l as [|t l IH]; [reflexivity|].
  cbn [length drain]. unfold Next at 1. cbn [closed tuples err].
  rewrite IH. reflexivity.
Qed.

Lemma drain_exhausted (k : nat) (e : option error) :
  drain k (mkIterator [] false e) = (repeat None k, mkIterator [] false e).
Proof.
  induction k as [|k IH]; [reflexivity|].
  cbn [drain repeat]. unfold Next at 1. cbn [closed tuples].
  rewrite IH. reflexivity.
Qed.

Lemma drain_closed (k : nat) (l : list RelationTuple) (e : option error) :
  drain (S k) (mkIterator l true e) =
  (repeat None (S k), mkIterator l true (Some errClosedIterator)).
Proof.
  revert e. induction k as [|k IH]; intros e.
  - reflexivity.
  - change (drain (S (S k)) (mkIterator l true e))
      with (let '(ts, pti) := drain (S k) (mkIterator l true (Some errClosedIterator))
            in (@None RelationTuple :: ts, pti)).
    rewrite IH. reflexivity.
Qed.

(** C5. On an open iterator over a buffer of [n] tuples, the first [n]
    calls to [Next] return the tuples of the buffer from first to last, each
    once, and leave the buffer empty.  When the transaction opens, the
    request compiles and runs, and every row decodes, the buffer of the
    iterator [Execute] returns is the decoded rows in the order the cursor
    produced them, so these calls deliver the rows in cursor order. *)
Theorem Next_preserves_engine_order
    (ptq : pgTupleQuery) (tx : Tx) (sql : string) (args : list Value)
    (rs : list ScannedRow) :
  (forall l e,
     drain (length l) (mkIterator l false e) = (map Some l, mkIterator [] false e)) /\
  (Beginx (db ptq) = inr tx ->
   ToSql (query ptq) = inr (sql, args) ->
   Queryx (db ptq) sql args = inr (mkRows (map inr rs) None) ->
   exists it,
     snd (Execute ToSql GoSyntax ptq) = (Some it, None) /\
     tuples (iter it) = map newTuple rs /\
     drain (length rs) (iter it) =
       (map Some (map newTuple rs), mkIterator [] false None)).
Proof.
  split; [apply drain_open|].
  intros Hb Hc Hq.
  unfold Execute, deferRollback, executeBody. rewrite Hb. simpl.
  rewrite Hc. simpl. rewrite Hq. simpl.
  rewrite scanLoop_all_decoded. simpl.
  eexists. split; [reflexivity|]. simpl. split; [reflexivity|].
  rewrite <- (length_map newTuple rs). apply drain_open.
Qed.

(** C6. Take an open iterator with an empty error slot and drain it.  Every
    further [Next] returns no value and leaves the iterator open with its
    error slot empty.  Once [Close] has been called, on a drained iterator
    or on any open one, every [Next] returns no value and [Err] reports the
    iterator-closed error. *)
Theorem Next_exhausted_then_closed (l : list RelationTuple) (k : nat) :
  let drained := snd (drain (length l) (mkIterator l false None)) in
  drain k drained = (repeat None k, drained) /\
  closed drained = false /\ Err drained = None /\
  (exists shut, Close drained = Returns shut /\
     fst (drain (S k) shut) = repeat None (S k) /\
     Err (snd (drain (S k) shut)) = Some errClosedIterator) /\
  (forall e, exists shut, Close (mkIterator l false e) = Returns shut /\
     fst (drain (S k) shut) = repeat None (S k) /\
     Err (snd (drain (S k) shut)) = Some errClosedIterator).
Proof.
  intros drained. subst drained. rewrite drain_open. cbn [snd].
  split; [apply drain_exhausted|].
  split; [reflexivity|]. split; [reflexivity|].
  split; [|intros e]; eexists; (split; [reflexivity|]);
    rewrite drain_closed; split; reflexivity.
Qed.

Lemma step_keeps_closed (c : call) (pti pti' : pgTupleIterator) (o : observation) :
  step c pti = Returns (o, pti') -> closed pti = true -> closed pti' = true.
Proof.
  intros H Hc. destruct c; simpl in H.
  - unfold Next in H. rewrite Hc in H. injection H as _ <-. reflexivity.
  - injection H as _ <-. exact Hc.
  - unfold Close in H. rewrite Hc in H. discriminate H.
Qed.

Lemma run_closed_then_Close (cs : list call) (pti : pgTupleIterator) :
  closed pti = true -> run (cs ++ [callClose]) pti = Panics doubleClosed.
Proof.
  revert pti. induction cs as [|c cs IH]; intros pti Hc; simpl.
  - unfold Close. rewrite Hc. reflexivity.
  - destruct (step c pti) as [[o pti']|v] eqn:E; simpl.
    + rewrite (IH pti'); [reflexivity|].
      eapply step_keeps_closed; eassumption.
    + destruct c; simpl in E.
      * destruct (Next pti); discriminate.
      * discriminate.
      * unfold Close in E. rewrite Hc in E. simpl in E.
        injection E as <-. reflexivity.
Qed.

Lemma run_noClose_open (cs : list call) (pti : pgTupleIterator) :
  noClose cs = true -> closed pti = false ->
  exists obs pti', run cs pti = Returns (obs, pti') /\
                   closed pti' = false /\ err pti' = err pti.
Proof.
  revert pti. induction cs as [|c cs IH]; intros pti Hn Hc; simpl.
  - eauto.
  - simpl in Hn. apply andb_true_iff in Hn. destruct Hn as [Hc0 Hn].
    destruct c; try discriminate; simpl.
    + unfold Next. rewrite Hc.
      destruct (tuples pti) as [|t rest] eqn:Et; simpl.
      * destruct (IH pti Hn Hc) as [obs [pti' [-> [H1 H2]]]]. simpl. eauto.
      * destruct (IH (mkIterator rest false (err pti)) Hn eq_refl)
          as [obs [pti' [-> [H1 H2]]]]. simpl. eauto.
    + destruct (IH pti Hn Hc) as [obs [pti' [-> [H1 H2]]]]. simpl. eauto.
Qed.

(** C7. On an iterator that has not been closed, whatever [Next] and [Err]
    calls came before, the first [Close] returns, empties the buffer and
    marks the iterator closed; whatever calls follow, a second [Close]
    panics with the double-close message. *)
Theorem Close_twice_panics
    (l : list RelationTuple) (e : option error) (pre mid : list call) :
  noClose pre = true ->
  (exists obs shut,
     run (pre ++ [callClose]) (mkIterator l false e) = Returns (obs, shut) /\
     tuples shut = [] /\ closed shut = true /\
     Close shut = Panics doubleClosed) /\
  run (pre ++ callClose :: mid ++ [callClose]) (mkIterator l false e)
    = Panics doubleClosed.
Proof.
  intros Hn.
  destruct (run_noClose_open pre (mkIterator l false e) Hn eq_refl)
    as [obs [pti' [Hrun [Hc He]]]].
  split.
  - rewrite run_app, Hrun. simpl. unfold Close. rewrite Hc. simpl.
    eexists _, _. split; [reflexivity|]. simpl. auto.
  - rewrite run_app, Hrun. cbn [bindO snd].
    change (callClose :: mid ++ [callClose])%list
      with ([callClose] ++ (mid ++ [callClose]))%list.
    rewrite run_app. simpl. unfold Close at 1. rewrite Hc. simpl.
    rewrite run_closed_then_Close; reflexivity.
Qed.

(** C9, amended. For the iterator a successful [Execute] returns, the
    finalizer registered on it is the leak check of the statement that was
    run.  Whenever the runtime runs that finalizer on the abandoned
    iterator, it panics exactly when the iterator has not been closed, with
    the message that names the unclosed iterator, the SQL text and the
    arguments, and it returns quietly when the iterator has been closed.
    Nothing is said of a runtime that never runs the finalizer. *)
Theorem finalizer_run_panics_iff_open (ptq : pgTupleQuery) (it : TupleIterator) :
  snd (Execute ToSql GoSyntax ptq) = (Some it, None) ->
  exists sql args,
    ToSql (query ptq) = inr (sql, args) /\
    leakMessage GoSyntax sql args =
      "Tuple iterator garbage collected before Close() was called" ++
      newline ++ " sql: " ++ sql ++
      newline ++ " args: " ++ GoSyntax args ++ newline /\
    forall now,
      abandon finalizerRuns it now =
        (if closed now then Returns tt
         else Panics (panicString (leakMessage GoSyntax sql args))) /\
      ((exists v, abandon finalizerRuns it now = Panics v) <-> closed now = false).
Proof.
  intros H. apply Execute_iterator_fresh in H.
  destruct H as [_ [_ [_ [sql [args [Hc Hf]]]]]].
  exists sql, args. split; [exact Hc|]. split; [reflexivity|].
  intros now. unfold abandon, collect. rewrite Hf. unfold leakCheck.
  destruct (closed now); simpl; split; try reflexivity.
  - split; [intros [v Hv]; discriminate | discriminate].
  - split; [reflexivity | eauto].
Qed.

(** [Next] on a closed iterator is the only call that writes the error
    slot, and what it writes is the iterator-closed error. *)
Lemma step_Err (c : call) (pti pti' : pgTupleIterator) (o : observation) :
  step c pti = Returns (o, pti') ->
  Err pti' = match c with
             | callNext => if closed pti then Some errClosedIterator else Err pti
             | _ => Err pti
             end /\
  closed pti' = (closed pti || match c with callClose => true | _ => false end).
Proof.
  intros H. destruct c; simpl in H.
  - unfold Next in H. destruct (closed pti) eqn:E.
    + injection H as _ <-. simpl. auto.
    + destruct (tuples pti); injection H as _ <-; simpl; auto.
  - injection H as _ <-. rewrite orb_false_r. auto.
  - unfold Close in H. destruct (closed pti) eqn:E; simpl in H; [discriminate|].
    injection H as _ <-. simpl. auto.
Qed.

Lemma run_Err (cs : list call) (pti pti' : pgTupleIterator) (obs : list observation) :
  run cs pti = Returns (obs, pti') ->
  Err pti' = (if usedAfterClose (closed pti) cs
              then Some errClosedIterator else Err pti).
Proof.
  revert pti obs. induction cs as [|c cs IH]; intros pti obs; simpl.
  - intros H. injection H as _ <-. reflexivity.
  - destruct (step c pti) as [[o pti1]|v] eqn:E; simpl; [|discriminate].
    destruct (run cs pti1) as [[obs1 pti2]|v] eqn:E2; simpl; [|discriminate].
    intros H. injection H as _ <-.
    apply IH in E2. apply step_Err in E. destruct E as [E Ecl].
    rewrite E2, Ecl, E.
    destruct c.
    + rewrite orb_false_r.
      destruct (closed pti); simpl; [|reflexivity].
      now destruct (usedAfterClose true cs).
    + rewrite orb_false_r. reflexivity.
    + rewrite orb_true_r. reflexivity.
Qed.

(** C10. Start from a fresh iterator, open and with an empty error slot,
    and make any calls that return.  The error slot then holds the
    iterator-closed error if some [Next] was called after a [Close], and is
    empty otherwise.  A call changes the slot only if it is a [Next] on a
    closed iterator, and it then writes the iterator-closed error.  Once the
    slot holds that error, no later calls clear it. *)
Theorem error_slot_invariant
    (l : list RelationTuple) (cs : list call)
    (obs : list observation) (pti : pgTupleIterator) :
  run cs (mkIterator l false None) = Returns (obs, pti) ->
  Err pti = (if usedAfterClose false cs then Some errClosedIterator else None) /\
  (forall c o pti', step c pti = Returns (o, pti') ->
     Err pti' <> Err pti ->
     c = callNext /\ closed pti = true /\ Err pti' = Some errClosedIterator) /\
  (forall cs' obs' pti', Err pti = Some errClosedIterator ->
     run cs' pti = Returns (obs', pti') ->
     Err pti' = Some errClosedIterator).
Proof.
  intros H. split; [|split].
  - apply run_Err in H. exact H.
  - intros c o pti' Hs Hne. apply step_Err in Hs. destruct Hs as [Hs _].
    destruct c; try (rewrite Hs in Hne; contradiction).
    destruct (closed pti); [auto | rewrite Hs in Hne; contradiction].
  - intros cs' obs' pti' He Hr. apply run_Err in Hr. rewrite Hr, He.
    now destruct (usedAfterClose (closed pti) cs').
Qed.

End Properties.

(** C8, as stated, fails: with an absent subject [WithUserset] reads a
    field through a nil pointer and panics, so it returns no
    specification. *)
Lemma WithUserset_nil_panics :
  WithUserset sampleQuery None = Panics nilPointerDereference /\
  ~ (exists q, WithUserset sampleQuery None = Returns q).
Proof.
  split; [reflexivity|].
  intros [q H]. discriminate H.
Qed.

(** *** The transaction *)

(** C2. On the sample engine, where the transaction opens and every stage
    succeeds, [Execute] begins a transaction, runs the request on the pool
    ([ptq.db.Queryx]) and rolls the transaction back: the request is not
    issued on the transaction it opened. *)
Theorem Execute_queries_outside_transaction :
  fst (Execute sampleToSql sampleGoSyntax sampleQuery) =
    [EvBeginx; EvQueryx onDB "SELECT" []; EvRollback 1%nat] /\
  forall tx sql args,
    ~ In (EvQueryx (onTx tx) sql args)
         (fst (Execute sampleToSql sampleGoSyntax sampleQuery)).
Proof.
  split; [reflexivity|].
  intros tx sql args H.
  apply Execute_runs_compiled_query in H. destruct H as [H _]. discriminate H.
Qed.

(** *** The theorems at concrete inputs *)

Lemma QueryTuples_visibility_witness :
  refineAll sampleQuery [byObjectID "42"; byRelation "viewer"] =
    Returns (WithRelation (WithObjectID sampleQuery "42") "viewer") /\
  accepts (query (WithRelation (WithObjectID sampleQuery "42") "viewer")) sampleStored = true /\
  visibleAt sampleLive 5 sampleStored.
Proof.
  split; [reflexivity|]. split; [reflexivity|].
  exact (proj2 (proj1 (proj2
    (QueryTuples_visibility sampleLive sampleToSql sampleGoSyntax
       (mkDatastore sampleDB) "doc" 5
       [byObjectID "42"; byRelation "viewer"] eq_refl)) sampleStored eq_refl)).
Defined.

Lemma Execute_failure_wraps_cause_witness :
  rows_pending (mkRows [inr sampleRow1; inl (errors_New "scan"); inr sampleRow2] None) =
    (map inr [sampleRow1] ++ inl (errors_New "scan") :: [inr sampleRow2])%list /\
  snd (Execute sampleToSql sampleGoSyntax
         (QueryTuples sampleLive (mkDatastore sampleBadDB) "doc" 5)) =
    (None, Some (fmt_Errorf_w errUnableToQueryTuples (errors_New "scan"))).
Proof.
  split; [reflexivity|].
  exact (proj2
    (Execute_failure_wraps_cause sampleToSql sampleGoSyntax
       (QueryTuples sampleLive (mkDatastore sampleBadDB) "doc" 5))
    1%nat "SELECT" [] _ [sampleRow1] (errors_New "scan") [inr sampleRow2]
    eq_refl eq_refl eq_refl eq_refl).
Defined.

Lemma Next_preserves_engine_order_witness :
  Queryx (db sampleQuery) "SELECT" [] =
    inr (mkRows (map inr [sampleRow1; sampleRow2]) None) /\
  exists it,
    snd (Execute sampleToSql sampleGoSyntax sampleQuery) = (Some it, None) /\
    tuples (iter it) = map newTuple [sampleRow1; sampleRow2] /\
    drain 2 (iter it) =
      (map Some (map newTuple [sampleRow1; sampleRow2]), mkIterator [] false None).
Proof.
  split; [reflexivity|].
  exact (proj2 (Next_preserves_engine_order sampleToSql sampleGoSyntax sampleQuery
                  1%nat "SELECT" [] [sampleRow1; sampleRow2])
           eq_refl eq_refl eq_refl).
Defined.

Lemma Close_twice_panics_witness :
  noClose [callNext; callErr] = true /\
  run ([callNext; callErr] ++ callClose :: [callNext] ++ [callClose])
      (mkIterator [newTuple sampleRow1] false None) = Panics doubleClosed.
Proof.
  split; [reflexivity|].
  exact (proj2 (Close_twice_panics [newTuple sampleRow1] None
                  [callNext; callErr] [callNext] eq_refl)).
Defined.

Lemma finalizer_run_panics_iff_open_witness :
  snd (Execute sampleToSql sampleGoSyntax sampleQuery) = (Some sampleIterator, None) /\
  exists sql args,
    sampleToSql (query sampleQuery) = inr (sql, args) /\
    leakMessage sampleGoSyntax sql args =
      "Tuple iterator garbage collected before Close() was called" ++
      newline ++ " sql: " ++ sql ++
      newline ++ " args: " ++ sampleGoSyntax args ++ newline /\
    forall now,
      abandon finalizerRuns sampleIterator now =
        (if closed now then Returns tt
         else Panics (panicString (leakMessage sampleGoSyntax sql args))) /\
      ((exists v, abandon finalizerRuns sampleIterator now = Panics v)
       <-> closed now = false).
Proof.
  split; [reflexivity|].
  exact (finalizer_run_panics_iff_open sampleToSql sampleGoSyntax sampleQuery
           (it := sampleIterator) eq_refl).
Defined.

(** C9, as stated, fails: the iterator [Execute] returns for the sample
    query is open, and when it is abandoned to a runtime that never runs
    its finalizer no panic is raised; so it is not the case that every
    iterator abandoned while open ends in a fatal failure. *)
Lemma abandoned_open_iterator_may_leak :
  snd (Execute sampleToSql sampleGoSyntax sampleQuery) = (Some sampleIterator, None) /\
  closed (iter sampleIterator) = false /\
  abandon finalizerNeverRuns sampleIterator (iter sampleIterator) = Returns tt /\
  ~ (forall (f : fate) (now : pgTupleIterator),
       closed now = false ->
       exists v, abandon f sampleIterator now = Panics v).
Proof.
  split; [reflexivity|]. split; [reflexivity|]. split; [reflexivity|].
  intros H.
  destruct (H finalizerNeverRuns (iter sampleIterator) eq_refl) as [v Hv].
  discriminate Hv.
Qed.

Lemma error_slot_invariant_witness :
  run [callNext; callClose; callNext; callErr]
      (mkIterator [newTuple sampleRow1] false None) =
    Returns ([sawNext (Some (newTuple sampleRow1)); sawClose; sawNext None;
              sawErr (Some errClosedIterator)],
             mkIterator [] true (Some errClosedIterator)) /\
  Err (mkIterator [] true (Some errClosedIterator)) = Some errClosedIterator.
Proof.
  split; [reflexivity|].
  exact (proj1 (error_slot_invariant [newTuple sampleRow1]
                  [callNext; callClose; callNext; callErr] eq_refl)).
Defined.

(** ** Further properties of the query specification *)

Section Specification.

Variable liveDeletedTxnID : Z.

Lemma isLtOrEq_leb (x y : Z) :
  isLtOrEq (compareValue (VUint64 x) (VUint64 y)) = (x <=? y).
Proof.
  simpl. destruct (Z.compare_spec x y); destruct (Z.leb_spec x y);
    try reflexivity; lia.
Qed.

Lemma isEq_eqb (x y : Z) :
  isEq (compareValue (VUint64 x) (VUint64 y)) = (x =? y).
Proof.
  simpl. destruct (Z.compare_spec x y); destruct (Z.eqb_spec x y);
    try reflexivity; lia.
Qed.

Lemma isGt_ltb (x y : Z) :
  isGt (compareValue (VUint64 x) (VUint64 y)) = (y <? x).
Proof.
  simpl. destruct (Z.compare_spec x y); destruct (Z.ltb_spec y x);
    try reflexivity; lia.
Qed.

(** The filter [QueryTuples] builds, as a boolean expression. *)
Lemma QueryTuples_accepts (pgd : pgDatastore) (ns : string) (R : Z) (row : StoredRow) :
  accepts (query (QueryTuples liveDeletedTxnID pgd ns R)) row =
  String.eqb (row_namespace row) ns &&
  (createdAtRevision row <=? R) &&
  ((deletedAtRevision row =? liveDeletedTxnID) || (R <? deletedAtRevision row)).
Proof.
  unfold accepts, QueryTuples, queryTuples, Select, Where.
  cbn [query WhereParts app forallb holds existsb fst snd column].
  rewrite isEq_string_eqb, isLtOrEq_leb, isEq_eqb, isGt_ltb.
  rewrite !andb_true_r, orb_false_r, andb_assoc. reflexivity.
Qed.

(** X1. The filter of a freshly constructed specification accepts exactly
    the rows of its namespace that are visible at its revision: nothing
    else is required of a row, and nothing less. *)
Theorem QueryTuples_filter_exact
    (pgd : pgDatastore) (ns : string) (R : Z) (row : StoredRow) :
  accepts (query (QueryTuples liveDeletedTxnID pgd ns R)) row = true <->
  row_namespace row = ns /\ visibleAt liveDeletedTxnID R row.
Proof.
  rewrite QueryTuples_accepts. unfold visibleAt.
  rewrite !andb_true_iff, orb_true_iff, String.eqb_eq,
    Z.leb_le, Z.eqb_eq, Z.ltb_lt.
  split.
  - intros [[H1 H2] [H3|H3]]; repeat split; auto; right; lia.
  - intros [H1 [H2 [H3|H3]]]; repeat split; auto; right; lia.
Qed.

(** X2. The revisions at which a row is delivered form an interval: a row
    accepted at two revisions is accepted at every revision between
    them. *)
Theorem visibility_is_an_interval
    (pgd : pgDatastore) (ns : string) (R1 R2 R3 : Z) (row : StoredRow) :
  R1 <= R2 <= R3 ->
  accepts (query (QueryTuples liveDeletedTxnID pgd ns R1)) row = true ->
  accepts (query (QueryTuples liveDeletedTxnID pgd ns R3)) row = true ->
  accepts (query (QueryTuples liveDeletedTxnID pgd ns R2)) row = true.
Proof.
  rewrite !QueryTuples_accepts.
  rewrite !andb_true_iff, !orb_true_iff, !Z.leb_le, !Z.eqb_eq, !Z.ltb_lt.
  intros HR [[Hn H1] _] [_ H3].
  repeat split; [assumption | lia | destruct H3; [left|right]; lia].
Qed.

(** The filter after one refinement that returns. *)
Lemma refine_accepts (ptq q : pgTupleQuery) (r : refinement) (row : StoredRow) :
  refine ptq r = Returns q ->
  accepts (query q) row = accepts (query ptq) row && refinementHolds r row.
Proof.
  destruct r as [objectID|rel|[us|]]; simpl; intros H;
    try discriminate; injection H as <-.
  - unfold WithObjectID. cbn [query]. rewrite accepts_Where. f_equal.
    cbn [holds forallb fst snd column]. rewrite andb_true_r.
    apply isEq_string_eqb.
  - unfold WithRelation. cbn [query]. rewrite accepts_Where. f_equal.
    cbn [holds forallb fst snd column]. rewrite andb_true_r.
    apply isEq_string_eqb.
  - cbn [query]. rewrite accepts_Where. f_equal.
    cbn [holds forallb fst snd column].
    rewrite !isEq_string_eqb, andb_true_r, andb_assoc. reflexivity.
Qed.

Lemma refineAll_accepts (rs : list refinement) (ptq q : pgTupleQuery) (row : StoredRow) :
  refineAll ptq rs = Returns q ->
  accepts (query q) row =
  accepts (query ptq) row && forallb (fun r => refinementHolds r row) rs.
Proof.
  revert ptq. induction rs as [|r rs IH]; intros ptq; simpl.
  - intros H. injection H as <-. now rewrite andb_true_r.
  - destruct (refine ptq r) as [ptq'|v] eqn:E; simpl; [|discriminate].
    intros H. rewrite (IH _ H), (refine_accepts _ _ row E), andb_assoc.
    reflexivity.
Qed.

(** X3. Narrowing to the same object id twice leaves the filter as after
    the first call; narrowing to two different object ids gives a filter
    that accepts no row, since the second part is added to the first, not
    put in its place. *)
Theorem WithObjectID_twice (s : pgTupleQuery) (x y : string) (row : StoredRow) :
  accepts (query (WithObjectID (WithObjectID s x) x)) row =
    accepts (query (WithObjectID s x)) row /\
  (x <> y -> accepts (query (WithObjectID (WithObjectID s x) y)) row = false).
Proof.
  assert (A : forall t z,
    accepts (query (WithObjectID t z)) row =
    accepts (query t) row && String.eqb (row_objectID row) z).
  { intros t z. exact (refine_accepts t (byObjectID z) row eq_refl). }
  rewrite !A. split.
  - rewrite <- andb_assoc, andb_diag. reflexivity.
  - intros Hne.
    destruct (String.eqb_spec (row_objectID row) x) as [E1|E1];
      destruct (String.eqb_spec (row_objectID row) y) as [E2|E2];
      rewrite ?andb_false_r; try reflexivity.
    congruence.
Qed.

(** X4. A second [WithRelation] overwrites the [relation] field of the
    specification but adds its part to the filter without removing the
    first: with two different relations the field names the second and the
    filter accepts no row; with the same relation the filter is as after
    one call. *)
Theorem WithRelation_twice (s : pgTupleQuery) (r1 r2 : string) (row : StoredRow) :
  relation (WithRelation (WithRelation s r1) r2) = r2 /\
  length (WhereParts (query (WithRelation (WithRelation s r1) r2))) =
    S (S (length (WhereParts (query s)))) /\
  (r1 <> r2 -> accepts (query (WithRelation (WithRelation s r1) r2)) row = false) /\
  accepts (query (WithRelation (WithRelation s r1) r1)) row =
    accepts (query (WithRelation s r1)) row.
Proof.
  assert (A : forall t z,
    accepts (query (WithRelation t z)) row =
    accepts (query t) row && String.eqb (row_relation row) z).
  { intros t z. exact (refine_accepts t (byRelation z) row eq_refl). }
  split; [reflexivity|]. split.
  { unfold WithRelation. cbn [query Where WhereParts].
    rewrite !length_app. simpl. lia. }
  rewrite !A. split.
  - intros Hne.
    destruct (String.eqb_spec (row_relation row) r1) as [E1|E1];
      destruct (String.eqb_spec (row_relation row) r2) as [E2|E2];
      rewrite ?andb_false_r; try reflexivity.
    congruence.
  - rewrite <- andb_assoc, andb_diag. reflexivity.
Qed.

(** X5. With a subject that is present, [WithUserset] returns a
    specification whose filter accepts a row exactly when the receiver's
    filter accepts it and all three subject columns equal the three fields
    of the subject: a match on one or two of them is not enough. *)
Theorem WithUserset_matches_whole_subject
    (s : pgTupleQuery) (us : ObjectAndRelation) :
  exists q, WithUserset s (Some us) = Returns q /\
    forall row,
      accepts (query q) row = true <->
      accepts (query s) row = true /\
      row_usersetNamespace row = Namespace us /\
      row_usersetObjectID row = ObjectId us /\
      row_usersetRelation row = Relation us.
Proof.
  eexists. split; [reflexivity|].
  intros row.
  rewrite (refine_accepts s (byUserset (Some us)) row eq_refl).
  cbn [refinementHolds].
  rewrite !andb_true_iff, !String.eqb_eq. tauto.
Qed.

(** When a chain of refinements returns, and what it panics with. *)
Lemma refineAll_outcome (rs : list refinement) (s : pgTupleQuery) :
  ((exists q, refineAll s rs = Returns q) <-> forallb subjectPresent rs = true) /\
  (forall v, refineAll s rs = Panics v -> v = nilPointerDereference).
Proof.
  revert s. induction rs as [|r rs IH]; intros s; simpl.
  - split; [split; eauto | intros v H; discriminate H].
  - destruct r as [objectID|rel|[us|]]; simpl; try apply IH.
    split.
    + split; [intros [q H]; discriminate H | discriminate].
    + intros v H. injection H as <-. reflexivity.
Qed.

(** X8. A chain of refinements returns a specification exactly when none
    of them passes a nil subject; otherwise it panics with the nil
    dereference. *)
Theorem refineAll_returns_iff (rs : list refinement) (s : pgTupleQuery) :
  ((exists q, refineAll s rs = Returns q) <-> forallb subjectPresent rs = true) /\
  (forall v, refineAll s rs = Panics v -> v = nilPointerDereference).
Proof.
  destruct (refineAll_outcome rs s) as [H1 H2].
  split; [exact H1 | exact H2].
Qed.

Lemma forallb_Permutation (A : Type) (f : A -> bool) (l l' : list A) :
  Permutation l l' -> forallb f l = forallb f l'.
Proof.
  induction 1 as [|x l l' _ IH|x y l|l l' l'' _ IH1 _ IH2]; simpl.
  - reflexivity.
  - now rewrite IH.
  - rewrite !andb_assoc, (andb_comm (f y) (f x)). reflexivity.
  - now rewrite IH1.
Qed.

(** X6. The order of the refinements does not matter to the result set:
    when a chain returns a specification, the same refinements in any other
    order return one too, and the two filters accept the same rows. *)
Theorem refinement_order_irrelevant
    (s q : pgTupleQuery) (rs rs' : list refinement) :
  Permutation rs rs' ->
  refineAll s rs = Returns q ->
  exists q', refineAll s rs' = Returns q' /\
    forall row, accepts (query q') row = accepts (query q) row.
Proof.
  intros HP H.
  assert (Hp : forallb subjectPresent rs' = true).
  { rewrite <- (forallb_Permutation subjectPresent HP).
    apply (proj1 (refineAll_outcome rs s)). eauto. }
  apply (proj1 (refineAll_outcome rs' s)) in Hp. destruct Hp as [q' Hq'].
  exists q'. split; [assumption|].
  intros row. rewrite (refineAll_accepts _ _ row H), (refineAll_accepts _ _ row Hq').
  f_equal. symmetry. now apply forallb_Permutation.
Qed.

Lemma refine_bookkeeping (ptq q : pgTupleQuery) (r : refinement) :
  refine ptq r = Returns q ->
  Columns (query q) = Columns (query ptq) /\ From (query q) = From (query ptq) /\
  namespace q = namespace ptq /\
  relation q = lastRelation (relation ptq) [r].
Proof.
  destruct r as [objectID|rel|[us|]]; simpl; intros H;
    try discriminate; injection H as <-; simpl; auto.
Qed.

(** X7. Whatever refinements follow [QueryTuples], the specification still
    selects the six tuple columns, in the order [Execute] scans them, from
    the tuple table, keeps the namespace and the engine it was constructed
    with, and its [relation] field is the argument of the last
    [WithRelation], or empty when there was none. *)
Theorem refinements_keep_projection
    (pgd : pgDatastore) (ns : string) (R : Z)
    (rs : list refinement) (q : pgTupleQuery) :
  refineAll (QueryTuples liveDeletedTxnID pgd ns R) rs = Returns q ->
  Columns (query q) =
    [colNamespace; colObjectID; colRelation;
     colUsersetNamespace; colUsersetObjectID; colUsersetRelation] /\
  From (query q) = tableTuple /\
  namespace q = ns /\
  db q = pgd_db pgd /\
  relation q = lastRelation "" rs.
Proof.
  assert (G : forall rs ptq q, refineAll ptq rs = Returns q ->
    Columns (query q) = Columns (query ptq) /\ From (query q) = From (query ptq) /\
    namespace q = namespace ptq /\ relation q = lastRelation (relation ptq) rs).
  { clear. induction rs as [|r rs IH]; intros ptq q; simpl.
    - intros H. injection H as <-. auto.
    - destruct (refine ptq r) as [ptq'|v] eqn:E; simpl; [|discriminate].
      intros H. apply IH in H. apply refine_bookkeeping in E.
      destruct H as [H1 [H2 [H3 H4]]]. destruct E as [E1 [E2 [E3 E4]]].
      rewrite H1, H2, H3, H4, E1, E2, E3, E4.
      repeat split. simpl. destruct r; reflexivity. }
  intros H. pose proof (G _ _ _ H) as [H1 [H2 [H3 H4]]].
  apply refineAll_extends in H. destruct H as [Hdb _].
  rewrite H1, H2, H3, H4, Hdb. repeat split.
Qed.

End Specification.

(** ** Further properties of the executor and the iterator *)

Section Delivery.

Variable ToSql : SelectBuilder -> error + (string * list Value).
Variable GoSyntax : list Value -> string.

Lemma scanLoop_returns (pending : list (error + ScannedRow))
    (acc ts : list RelationTuple) :
  scanLoop acc pending = inr ts ->
  exists rs, pending = map inr rs /\ ts = (acc ++ map newTuple rs)%list.
Proof.
  revert acc. induction pending as [|[e|r] rest IH]; intros acc; simpl.
  - intros H. injection H as <-. exists []. now rewrite app_nil_r.
  - discriminate.
  - intros H. apply IH in H. destruct H as [rs [-> ->]].
    exists (r :: rs). rewrite <- app_assoc. auto.
Qed.

(** X10. [Execute] returns an iterator only when the transaction opened,
    the request compiled and ran, every row of the cursor decoded and the
    cursor reported no error at its end; the buffer then holds one tuple
    for each row of the cursor, none dropped and none added. *)
Theorem Execute_success_is_complete (ptq : pgTupleQuery) (it : TupleIterator)
    (e : option error) :
  snd (Execute ToSql GoSyntax ptq) = (Some it, e) ->
  exists tx sql args rs,
    Beginx (db ptq) = inr tx /\
    ToSql (query ptq) = inr (sql, args) /\
    Queryx (db ptq) sql args = inr (mkRows (map inr rs) None) /\
    tuples (iter it) = map newTuple rs /\
    length (tuples (iter it)) = length rs /\
    e = None.
Proof.
  unfold Execute, deferRollback, executeBody, failed.
  destruct (Beginx (db ptq)) as [e0|tx]; simpl; [discriminate|].
  destruct (ToSql (query ptq)) as [e0|[sql args]]; simpl; [discriminate|].
  destruct (Queryx (db ptq) sql args) as [e0|[pending rerr]] eqn:Q; simpl;
    [discriminate|].
  destruct (scanLoop [] pending) as [e0|ts] eqn:L; [discriminate|].
  destruct rerr as [e0|]; [discriminate|].
  intros H. injection H as <- <-. simpl.
  apply scanLoop_returns in L. destruct L as [rs [-> ->]].
  exists tx, sql, args, rs. simpl. rewrite length_map. auto 7.
Qed.

(** X11. Any number [n] of calls to [Next] on an open iterator: they
    return the first [n] tuples of the buffer in order, then nothing for
    every call beyond its end, and leave in the buffer the tuples after
    the first [n]. *)
Theorem drain_any (n : nat) (l : list RelationTuple) (e : option error) :
  drain n (mkIterator l false e) =
  ((map Some (firstn n l) ++ repeat None (n - length l)%nat)%list,
   mkIterator (skipn n l) false e).
Proof.
  revert l. induction n as [|n IH]; intros l.
  - reflexivity.
  - cbn [drain]. unfold Next at 1. cbn [closed tuples err].
    destruct l as [|t l].
    + rewrite (IH []). rewrite firstn_nil, skipn_nil. simpl.
      rewrite Nat.sub_0_r. reflexivity.
    + rewrite (IH l). reflexivity.
Qed.

Lemma run_cons (c : call) (cs : list call) (pti pti1 : pgTupleIterator)
    (o : observation) :
  step c pti = Returns (o, pti1) ->
  run (c :: cs) pti =
  (r <- run cs pti1 ;; Returns (o :: fst r, snd r)).
Proof.
  intros H. simpl. rewrite H. reflexivity.
Qed.

(** Nothing is delivered by calls on a closed iterator. *)
Lemma run_delivered_closed (cs : list call) (pti pti' : pgTupleIterator)
    (obs : list observation) :
  run cs pti = Returns (obs, pti') -> closed pti = true ->
  delivered obs = [] /\ closed pti' = true /\ tuples pti' = tuples pti.
Proof.
  revert pti obs. induction cs as [|c cs IH]; intros pti obs; simpl.
  - intros H Hc. injection H as <- <-. auto.
  - destruct (step c pti) as [[o pti1]|v] eqn:S1; simpl; [|discriminate].
    destruct (run cs pti1) as [[obs1 pti2]|v] eqn:R1; simpl; [|discriminate].
    intros H Hc. injection H as <- <-.
    destruct c; simpl in S1.
    + unfold Next in S1. rewrite Hc in S1. injection S1 as <- <-.
      apply IH in R1; [|reflexivity]. simpl in R1. exact R1.
    + injection S1 as <- <-. apply IH in R1; assumption.
    + unfold Close in S1. rewrite Hc in S1. discriminate S1.
Qed.

(** What the tuples delivered by a run of calls on an open iterator are. *)
Lemma run_delivered (cs : list call) (pti pti' : pgTupleIterator)
    (obs : list observation) :
  run cs pti = Returns (obs, pti') -> closed pti = false ->
  exists n, delivered obs = firstn n (tuples pti) /\
            tuples pti' = (if closed pti' then [] else skipn n (tuples pti)).
Proof.
  revert pti obs. induction cs as [|c cs IH]; intros pti obs; simpl.
  - intros H Hc. injection H as <- <-. exists O. rewrite Hc. auto.
  - destruct (step c pti) as [[o pti1]|v] eqn:S1; simpl; [|discriminate].
    destruct (run cs pti1) as [[obs1 pti2]|v] eqn:R1; simpl; [|discriminate].
    intros H Hc. injection H as <- <-.
    destruct c; simpl in S1.
    + unfold Next in S1. rewrite Hc in S1.
      destruct (tuples pti) as [|t rest] eqn:Et; injection S1 as <- <-.
      * apply IH in R1; [|assumption]. rewrite Et in R1.
        destruct R1 as [n [H1 H2]]. exists n. simpl. auto.
      * apply IH in R1; [|reflexivity]. simpl in R1.
        destruct R1 as [n [H1 H2]]. exists (S n). simpl. rewrite H1. auto.
    + injection S1 as <- <-. simpl. apply IH in R1; assumption.
    + unfold Close in S1. rewrite Hc in S1. simpl in S1.
      injection S1 as <- <-.
      apply run_delivered_closed in R1; [|reflexivity].
      destruct R1 as [H1 [H2 H3]].
      exists O. simpl. rewrite H1, H2, H3. auto.
Qed.

(** X12. Whatever calls a consumer makes on an open iterator, in whatever
    order, the tuples it receives are the first [n] tuples of the buffer,
    in buffer order, for some [n]; if the iterator is still open afterwards
    the buffer holds the rest, and if it was closed the rest is gone and was
    never delivered. *)
Theorem delivered_is_prefix
    (l : list RelationTuple) (e : option error) (cs : list call)
    (obs : list observation) (pti : pgTupleIterator) :
  run cs (mkIterator l false e) = Returns (obs, pti) ->
  exists n,
    delivered obs = firstn n l /\
    tuples pti = (if closed pti then [] else skipn n l).
Proof.
  intros H. apply run_delivered in H; [exact H | reflexivity].
Qed.

(** The state of [closed] after a run that returns. *)
Lemma run_closed (cs : list call) (pti pti' : pgTupleIterator)
    (obs : list observation) :
  run cs pti = Returns (obs, pti') ->
  closed pti' = closed pti || negb (noClose cs).
Proof.
  revert pti obs. induction cs as [|c cs IH]; intros pti obs; simpl.
  - intros H. injection H as _ <-. now rewrite orb_false_r.
  - destruct (step c pti) as [[o pti1]|v] eqn:S1; simpl; [|discriminate].
    destruct (run cs pti1) as [[obs1 pti2]|v] eqn:R1; simpl; [|discriminate].
    intros H. injection H as _ <-.
    apply IH in R1. apply step_Err in S1. destruct S1 as [_ S1].
    rewrite R1, S1. destruct c; simpl; rewrite ?orb_false_r, ?orb_true_r;
      reflexivity.
Qed.

(** X13. For the iterator a successful [Execute] returns and any calls the
    consumer made on it before dropping it: the finalizer panics with the
    leak message when none of the calls was [Close], and returns quietly
    when one was. *)
Theorem leak_check_after_calls
    (ptq : pgTupleQuery) (it : TupleIterator) (cs : list call)
    (obs : list observation) (now : pgTupleIterator) :
  snd (Execute ToSql GoSyntax ptq) = (Some it, None) ->
  run cs (iter it) = Returns (obs, now) ->
  exists sql args,
    ToSql (query ptq) = inr (sql, args) /\
    collect it now =
      (if noClose cs
       then Panics (panicString (leakMessage GoSyntax sql args))
       else Returns tt).
Proof.
  intros HE HR. apply Execute_iterator_fresh in HE.
  destruct HE as [_ [Hc [_ [sql [args [Hs Hf]]]]]].
  exists sql, args. split; [exact Hs|].
  apply run_closed in HR. rewrite Hc in HR. simpl in HR.
  unfold collect. rewrite Hf. unfold leakCheck. rewrite HR.
  destruct (noClose cs); reflexivity.
Qed.

Lemma run_returns (cs : list call) (pti : pgTupleIterator) :
  ((exists r, run cs pti = Returns r) <->
   (closes cs + (if closed pti then 1 else 0) <= 1)%nat) /\
  (forall v, run cs pti = Panics v -> v = doubleClosed).
Proof.
  revert pti. induction cs as [|c cs IH]; intros pti.
  - simpl. split; [|discriminate].
    split; [intros _; destruct (closed pti); lia | eauto].
  - destruct (step c pti) as [[o pti1]|v] eqn:S1.
    + rewrite (@run_cons c cs pti pti1 o S1).
      pose proof (@step_Err c pti pti1 o S1) as [_ Hc].
      destruct (IH pti1) as [IH1 IH2].
      assert (Hcl : (closes (c :: cs) + (if closed pti then 1 else 0) <= 1)%nat <->
                    (closes cs + (if closed pti1 then 1 else 0) <= 1)%nat).
      { rewrite Hc. destruct c; simpl; rewrite ?orb_false_r; try reflexivity.
        simpl in S1. unfold Close in S1.
        destruct (closed pti); simpl in S1; [discriminate|].
        simpl. lia. }
      rewrite Hcl. split.
      * rewrite <- IH1. split.
        -- intros [r Hr]. destruct (run cs pti1) as [r1|v]; [eauto|discriminate].
        -- intros [r1 Hr]. rewrite Hr. simpl. eauto.
      * intros v Hv. destruct (run cs pti1) as [r1|v1] eqn:R1; simpl in Hv;
          [discriminate|].
        injection Hv as <-. now apply IH2.
    + assert (Hs : c = callClose /\ closed pti = true /\ v = doubleClosed).
      { destruct c; simpl in S1.
        - destruct (Next pti); discriminate.
        - discriminate.
        - unfold Close in S1. destruct (closed pti); simpl in S1;
            [|discriminate]. injection S1 as <-. auto. }
      destruct Hs as [-> [Hc ->]].
      simpl. unfold Close. rewrite Hc. simpl. split.
      * split; [intros [r Hr]; discriminate | lia].
      * intros v Hv. injection Hv as <-. reflexivity.
Qed.

(** X14. A run of calls on an open iterator returns exactly when at most
    one of the calls is [Close]; the only panic a run can end in is the
    double-close panic. *)
Theorem run_panics_only_on_second_Close
    (l : list RelationTuple) (e : option error) (cs : list call) :
  ((exists r, run cs (mkIterator l false e) = Returns r) <-> (closes cs <= 1)%nat) /\
  (forall v, run cs (mkIterator l false e) = Panics v -> v = doubleClosed).
Proof.
  destruct (run_returns cs (mkIterator l false e)) as [H1 H2].
  split; [|exact H2].
  rewrite H1. simpl. rewrite Nat.add_0_r. reflexivity.
Qed.

End Delivery.

(** *** The further properties at concrete inputs *)

Lemma visibility_is_an_interval_witness :
  5 <= 7 <= 8 /\
  accepts (query (QueryTuples sampleLive (mkDatastore sampleDB) "doc" 5)) sampleDeleted = true /\
  accepts (query (QueryTuples sampleLive (mkDatastore sampleDB) "doc" 8)) sampleDeleted = true /\
  accepts (query (QueryTuples sampleLive (mkDatastore sampleDB) "doc" 7)) sampleDeleted = true.
Proof.
  split; [lia|]. split; [reflexivity|]. split; [reflexivity|].
  apply (@visibility_is_an_interval sampleLive (mkDatastore sampleDB) "doc" 5 7 8
           sampleDeleted); [lia | reflexivity | reflexivity].
Defined.

Lemma WithObjectID_twice_witness :
  "42" <> "43" /\
  accepts (query (WithObjectID sampleQuery "42")) sampleStored = true /\
  accepts (query (WithObjectID (WithObjectID sampleQuery "42") "43")) sampleStored = false.
Proof.
  split; [discriminate|]. split; [reflexivity|].
  apply (proj2 (WithObjectID_twice sampleQuery "42" "43" sampleStored)).
  discriminate.
Defined.

Lemma WithRelation_twice_witness :
  "viewer" <> "editor" /\
  relation (WithRelation (WithRelation sampleQuery "viewer") "editor") = "editor" /\
  accepts (query (WithRelation (WithRelation sampleQuery "viewer") "editor")) sampleStored = false.
Proof.
  split; [discriminate|]. split; [reflexivity|].
  apply (proj1 (proj2 (proj2
    (WithRelation_twice sampleQuery "viewer" "editor" sampleStored)))).
  discriminate.
Defined.

Lemma refineAll_returns_iff_witness :
  forallb subjectPresent [byObjectID "42"; byRelation "viewer"] = true /\
  exists q, refineAll sampleQuery [byObjectID "42"; byRelation "viewer"] = Returns q.
Proof.
  split; [reflexivity|].
  apply (proj2 (proj1 (refineAll_returns_iff
    [byObjectID "42"; byRelation "viewer"] sampleQuery))).
  reflexivity.
Defined.

Lemma refinement_order_irrelevant_witness :
  Permutation [byObjectID "42"; byRelation "viewer"]
              [byRelation "viewer"; byObjectID "42"] /\
  refineAll sampleQuery [byObjectID "42"; byRelation "viewer"] =
    Returns (WithRelation (WithObjectID sampleQuery "42") "viewer") /\
  exists q',
    refineAll sampleQuery [byRelation "viewer"; byObjectID "42"] = Returns q' /\
    forall row, accepts (query q') row =
                accepts (query (WithRelation (WithObjectID sampleQuery "42") "viewer")) row.
Proof.
  split; [apply perm_swap|]. split; [reflexivity|].
  apply (@refinement_order_irrelevant sampleQuery
           (WithRelation (WithObjectID sampleQuery "42") "viewer")
           [byObjectID "42"; byRelation "viewer"]
           [byRelation "viewer"; byObjectID "42"]);
    [apply perm_swap | reflexivity].
Defined.

Lemma refinements_keep_projection_witness :
  refineAll sampleQuery [byRelation "viewer"; byObjectID "42"; byRelation "editor"] =
    Returns (WithRelation (WithObjectID (WithRelation sampleQuery "viewer") "42") "editor") /\
  relation (WithRelation (WithObjectID (WithRelation sampleQuery "viewer") "42") "editor") =
    "editor".
Proof.
  split; [reflexivity|].
  apply (proj2 (proj2 (proj2 (proj2
    (@refinements_keep_projection sampleLive (mkDatastore sampleDB) "doc" 5
       [byRelation "viewer"; byObjectID "42"; byRelation "editor"]
       (WithRelation (WithObjectID (WithRelation sampleQuery "viewer") "42") "editor")
       eq_refl))))).
Defined.

Lemma Execute_success_is_complete_witness :
  snd (Execute sampleToSql sampleGoSyntax sampleQuery) = (Some sampleIterator, None) /\
  exists tx sql args rs,
    Beginx (db sampleQuery) = inr tx /\
    sampleToSql (query sampleQuery) = inr (sql, args) /\
    Queryx (db sampleQuery) sql args = inr (mkRows (map inr rs) None) /\
    tuples (iter sampleIterator) = map newTuple rs /\
    length (tuples (iter sampleIterator)) = length rs /\
    @None error = None.
Proof.
  split; [reflexivity|].
  apply (@Execute_success_is_complete sampleToSql sampleGoSyntax sampleQuery
           sampleIterator None).
  reflexivity.
Defined.

Lemma delivered_is_prefix_witness :
  run [callNext; callErr; callClose; callNext]
      (mkIterator [newTuple sampleRow1; newTuple sampleRow2] false None) =
    Returns ([sawNext (Some (newTuple sampleRow1)); sawErr None; sawClose; sawNext None],
             mkIterator [] true (Some errClosedIterator)) /\
  exists n,
    delivered [sawNext (Some (newTuple sampleRow1)); sawErr None; sawClose; sawNext None] =
      firstn n [newTuple sampleRow1; newTuple sampleRow2] /\
    tuples (mkIterator [] true (Some errClosedIterator)) =
      (if closed (mkIterator [] true (Some errClosedIterator)) then []
       else skipn n [newTuple sampleRow1; newTuple sampleRow2]).
Proof.
  split; [reflexivity|].
  apply (@delivered_is_prefix [newTuple sampleRow1; newTuple sampleRow2] None
           [callNext; callErr; callClose; callNext]).
  reflexivity.
Defined.

Lemma leak_check_after_calls_witness :
  snd (Execute sampleToSql sampleGoSyntax sampleQuery) = (Some sampleIterator, None) /\
  run [callNext; callNext] (iter sampleIterator) =
    Returns ([sawNext (Some (newTuple sampleRow1)); sawNext (Some (newTuple sampleRow2))],
             mkIterator [] false None) /\
  exists sql args,
    sampleToSql (query sampleQuery) = inr (sql, args) /\
    collect sampleIterator (mkIterator [] false None) =
      (if noClose [callNext; callNext]
       then Panics (panicString (leakMessage sampleGoSyntax sql args))
       else Returns tt).
Proof.
  split; [reflexivity|]. split; [reflexivity|].
  apply (@leak_check_after_calls sampleToSql sampleGoSyntax sampleQuery
           sampleIterator [callNext; callNext]
           [sawNext (Some (newTuple sampleRow1)); sawNext (Some (newTuple sampleRow2))]
           (mkIterator [] false None));
    reflexivity.
Defined.

Lemma run_panics_only_on_second_Close_witness :
  (closes [callNext; callClose; callErr; callNext] <= 1)%nat /\
  exists r, run [callNext; callClose; callErr; callNext]
                (mkIterator [newTuple sampleRow1] false None) = Returns r.
Proof.
  split; [simpl; lia|].
  apply (proj2 (proj1 (run_panics_only_on_second_Close [newTuple sampleRow1] None
                         [callNext; callClose; callErr; callNext]))).
  simpl. lia.
Defined.

(** ** Refinements in the caller's memory *)

Section Branching.

Local Open Scope list_scope.















End Branching.

